(** * An in-memory key/value cache with per-entry expiry (modules/cache.go)

    The Go package keeps a [map[string]CacheItem] behind a [sync.RWMutex] and
    runs one background goroutine that sweeps expired entries once a second.
    This development embeds the package as Rocq functions and a small
    labelled transition system, and proves the properties the specification
    states about it.

    Conventions of the embedding:
    - the properties proved here are about calls made one after another, so
      a method call is one function on the cache state ([Get] looks the key
      up under the read lock and, for an expired item, calls [Delete], which
      takes the write lock; no other call comes in between in this model);
    - a call to [time.Now()] is an explicit argument [now] of the operation
      that makes it (each operation reads the clock exactly once);
    - [interface{}] is an arbitrary type [any] with a distinguished [nil];
    - the cleanup goroutine runs interleaved with the calls: see [step]. *)

From stdpp Require Import gmap strings list fin_maps.
From Stdlib Require Import ZArith Lia.

Open Scope Z_scope.

(** ** The fragment of Go's [time] package the cache uses *)

Module time.

(** [time.Duration] is an [int64] count of nanoseconds. *)
Definition Duration : Type := Z.

(** [time.Time] is an instant with nanosecond precision; it is represented
    by the number of nanoseconds elapsed since the Unix epoch. Go keeps the
    seconds of a [Time] in 64 bits of their own, so that adding an [int64]
    count of nanoseconds to a clock reading does not overflow: instants are
    unbounded integers here. *)
Definition Time : Type := Z.

Definition Millisecond : Duration := 1000000.
Definition Second : Duration := 1000000000.

(** [t.Add(d)] is the instant [t + d]. *)
Definition Add (t : Time) (d : Duration) : Time := t + d.

(** [t.Unix()] is the number of whole seconds elapsed since the epoch
    (rounded down). *)
Definition Unix (t : Time) : Z := t / Second.

End time.

(** ** Results of calls that may panic *)

Inductive result (A : Type) : Type :=
| Returns (a : A)
| Panics (msg : string).
Arguments Returns {A} a.
Arguments Panics {A} msg.

(** The state of [stopCleanup], a [chan bool] on which nothing is ever sent:
    all that matters is whether it has been closed. *)
Inductive chan : Type :=
| chan_open
| chan_closed.

Section Cache.

(** Go's [interface{}] and its [nil]. *)
Context {any : Type} (nil : any).

Record CacheItem : Type := mkCacheItem {
  Value : any;
  Expiration : Z  (* int64 Unix timestamp in seconds; 0 means no expiration *)
}.

Record Cache : Type := mkCache {
  items : gmap string CacheItem;
  stopCleanup : chan
}.

(** [NewCache] allocates an empty map and an open channel (and starts the
    cleanup goroutine, see [NewWorld] below). *)
Definition NewCache : Cache :=
  {| items := ∅; stopCleanup := chan_open |}.

(** [Set] (the name is reserved in Rocq, hence the underscore). The variadic
    [ttl ...time.Duration] is the list of the extra arguments. *)
Definition Set_ (now : time.Time) (key : string) (value : any)
    (ttl : list time.Duration) (c : Cache) : Cache :=
  let expiration :=
    match ttl with
    | ttl0 :: _ =>
        if 0 <? ttl0 then time.Unix (time.Add now ttl0) else 0
    | [] => 0
    end in
  {| items := <[key := {| Value := value; Expiration := expiration |}]> (items c);
     stopCleanup := stopCleanup c |}.

(** [Delete]: Go's [delete(m, key)] is a no-op on an absent key. *)
Definition Delete (key : string) (c : Cache) : Cache :=
  {| items := delete key (items c); stopCleanup := stopCleanup c |}.

(** The test [item.Expiration > 0 && now >= item.Expiration], written out
    in both [Get] and [deleteExpired]; [now] is in Unix seconds. *)
Definition isExpired (now : Z) (item : CacheItem) : bool :=
  (0 <? Expiration item) && (Expiration item <=? now).

(** [Get] returns the pair of results and the cache it leaves behind. *)
Definition Get (now : time.Time) (key : string) (c : Cache)
    : (any * bool) * Cache :=
  let now := time.Unix now in
  match items c !! key with
  | None => ((nil, false), c)
  | Some item =>
      if isExpired now item
      then ((nil, false), Delete key c)
      else ((Value item, true), c)
  end.

Definition Clear (c : Cache) : Cache :=
  {| items := ∅; stopCleanup := stopCleanup c |}.

(** [Keys] ranges over the map and appends each key. Go leaves the order
    of a map range unspecified; the model uses the order of [map_to_list]
    and the theorems only speak of membership. *)
Definition Keys (c : Cache) : list string :=
  foldl (λ keys kv, keys ++ [kv.1]) [] (map_to_list (items c)).

(** First loop of [deleteExpired]: collect the keys of the expired items. *)
Definition expiredKeys (now : Z) (m : gmap string CacheItem) : list string :=
  foldl (λ expiredKeys kv,
           if isExpired now kv.2 then expiredKeys ++ [kv.1] else expiredKeys)
        [] (map_to_list m).

(** [deleteExpired]: read the clock, collect, then delete what was
    collected. *)
Definition deleteExpired (now : time.Time) (c : Cache) : Cache :=
  let now := time.Unix now in
  let expiredKeys := expiredKeys now (items c) in
  {| items := foldl (λ m key, delete key m) (items c) expiredKeys;
     stopCleanup := stopCleanup c |}.

(** [Close] closes the channel; closing a closed channel panics. *)
Definition Close (c : Cache) : result Cache :=
  match stopCleanup c with
  | chan_open => Returns {| items := items c; stopCleanup := chan_closed |}
  | chan_closed => Panics "close of closed channel"
  end.

End Cache.

Arguments CacheItem any : clear implicits.
Arguments Cache any : clear implicits.
Arguments mkCacheItem {any} Value Expiration.
Arguments mkCache {any} items stopCleanup.
Arguments NewCache {any}.
Arguments Delete {any} key c.
Arguments Clear {any} c.
Arguments Keys {any} c.
Arguments Close {any} c.
Arguments Set_ {any} now key value ttl c.
Arguments deleteExpired {any} now c.

Arguments Get {any} nil now key c.
Arguments isExpired {any} now item.
Arguments expiredKeys {any} now m.

(** ** The cache together with its cleanup goroutine

    [NewCache] starts [startCleanup] in a goroutine of its own: a loop around
    a [select] with two cases, a tick of the one-second ticker (then
    [deleteExpired] runs) and a receive on [stopCleanup] (then the loop
    returns). A receive on [stopCleanup] can proceed only once the channel is
    closed, since nothing is ever sent on it. When both cases can proceed, Go
    picks one of them at random. *)

Inductive goroutine : Type :=
| Running
| Returned.

Record World (any : Type) : Type := mkWorld {
  cache : Cache any;
  tick : bool;          (* [ticker.C] (buffer of one) holds a tick *)
  reaper : goroutine    (* the goroutine running [startCleanup] *)
}.
Arguments mkWorld {any} cache tick reaper.
Arguments cache {any} w.
Arguments tick {any} w.
Arguments reaper {any} w.

Definition NewWorld {any : Type} : World any :=
  {| cache := NewCache; tick := false; reaper := Running |}.

(** The calls a client can make, each with the clock reading it takes. *)
Inductive call (any : Type) : Type :=
| CallSet (now : time.Time) (key : string) (value : any) (ttl : list time.Duration)
| CallGet (now : time.Time) (key : string)
| CallDelete (key : string)
| CallClear
| CallKeys
| CallClose.
Arguments CallSet {any} now key value ttl.
Arguments CallGet {any} now key.
Arguments CallDelete {any} key.
Arguments CallClear {any}.
Arguments CallKeys {any}.
Arguments CallClose {any}.

(** The effect of a call on the cache. *)
Definition exec {any : Type} (nil : any) (op : call any) (c : Cache any)
    : result (Cache any) :=
  match op with
  | CallSet now key value ttl => Returns (Set_ now key value ttl c)
  | CallGet now key => Returns (Get nil now key c).2
  | CallDelete key => Returns (Delete key c)
  | CallClear => Returns (Clear c)
  | CallKeys => Returns c
  | CallClose => Close c
  end.

(** The two cases of the [select] in [startCleanup]. *)
Inductive selectCase : Type :=
| CaseTick    (* case <-ticker.C *)
| CaseStop.   (* case <-c.stopCleanup *)

Definition isClosed (ch : chan) : bool :=
  match ch with
  | chan_closed => true
  | chan_open => false
  end.

(** Whether the communication of a case can proceed. *)
Definition canProceed {any : Type} (w : World any) (cs : selectCase) : bool :=
  match cs with
  | CaseTick => tick w
  | CaseStop => isClosed (stopCleanup (cache w))
  end.

(** One iteration of the loop of [startCleanup], the [select] having taken
    case [cs]; [now] is the clock reading [deleteExpired] takes. *)
Definition startCleanup {any : Type} (now : time.Time) (cs : selectCase)
    (w : World any) : World any :=
  match cs with
  | CaseTick =>
      {| cache := deleteExpired now (cache w); tick := false; reaper := Running |}
  | CaseStop =>
      {| cache := cache w; tick := tick w; reaper := Returned |}
  end.

(** What happens in one step of the whole system. *)
Inductive label (any : Type) : Type :=
| LCall (op : call any)                        (* a client call runs to completion *)
| LTick                                        (* the ticker delivers a tick *)
| LSelect (cs : selectCase) (now : time.Time). (* one iteration of the cleanup loop *)
Arguments LCall {any} op.
Arguments LTick {any}.
Arguments LSelect {any} cs now.

Section Steps.

Context {any : Type} (nil : any).

(** A call that panics aborts the process: it has no successor state. The
    ticker is stopped when [startCleanup] returns ([defer ticker.Stop()]).
    [select] may take any case that can proceed. *)
Inductive step : World any → label any → World any → Prop :=
| step_call op w c' :
    exec nil op (cache w) = Returns c' →
    step w (LCall op) {| cache := c'; tick := tick w; reaper := reaper w |}
| step_tick w :
    reaper w = Running →
    step w LTick {| cache := cache w; tick := true; reaper := Running |}
| step_select cs now w :
    reaper w = Running →
    canProceed w cs = true →
    step w (LSelect cs now) (startCleanup now cs w).

(** Finite runs, with the labels of their steps in order. *)
Inductive steps : World any → list (label any) → World any → Prop :=
| steps_nil w : steps w [] w
| steps_cons w l w' ls w'' :
    step w l w' → steps w' ls w'' → steps w (l :: ls) w''.



End Steps.

(** ** Running a list of steps

    The step relation as a function: [fire] takes one step when it is
    enabled, [run] a list of them. A call that panics, a tick or an
    iteration of a loop that has returned, and a [select] case that cannot
    proceed give [None]. *)

Definition fire {any : Type} (nil : any) (l : label any) (w : World any)
    : option (World any) :=
  match l with
  | LCall op =>
      match exec nil op (cache w) with
      | Returns c' => Some {| cache := c'; tick := tick w; reaper := reaper w |}
      | Panics _ => None
      end
  | LTick =>
      match reaper w with
      | Running => Some {| cache := cache w; tick := true; reaper := Running |}
      | Returned => None
      end
  | LSelect cs now =>
      match reaper w with
      | Running => if canProceed w cs then Some (startCleanup now cs w) else None
      | Returned => None
      end
  end.

Fixpoint run {any : Type} (nil : any) (ls : list (label any)) (w : World any)
    : option (World any) :=
  match ls with
  | [] => Some w
  | l :: ls =>
      match fire nil l w with
      | Some w' => run nil ls w'
      | None => None
      end
  end.

(** ** Reading runs

    Definitions used to state what a run has done. *)

Section Reading.

Context {any : Type}.

(** The item [Set] stores for a clock reading, a value and a TTL argument. *)
Definition stored (now : time.Time) (value : any) (ttl : list time.Duration)
    : CacheItem any :=
  {| Value := value;
     Expiration :=
       match ttl with
       | ttl0 :: _ => if 0 <? ttl0 then time.Unix (time.Add now ttl0) else 0
       | [] => 0
       end |}.

(** What the calls of a run last wrote for [key], starting from [init]:
    [Set] of the key writes an item, [Delete] of the key and [Clear] erase
    it, every other step writes nothing. *)
Definition write (key : string) (acc : option (CacheItem any)) (l : label any)
    : option (CacheItem any) :=
  match l with
  | LCall (CallSet now k value ttl) =>
      if bool_decide (k = key) then Some (stored now value ttl) else acc
  | LCall (CallDelete k) => if bool_decide (k = key) then None else acc
  | LCall CallClear => None
  | _ => acc
  end.

Definition lastWrite (key : string) (init : option (CacheItem any))
    (ls : list (label any)) : option (CacheItem any) :=
  foldl (write key) init ls.







(** How the entry of [key] in the table relates to what the run last wrote
    for it: an entry in the table is the last write, and a last write
    without expiration is in the table. *)
Definition agrees (acc entry : option (CacheItem any)) : Prop :=
  (∀ item, entry = Some item → acc = Some item)
  ∧ (∀ item, acc = Some item → Expiration item ≤ 0 → entry = Some item).

End Reading.

(** ** Arithmetic of Unix seconds *)

Lemma Unix_mono (t u : time.Time) : t ≤ u → time.Unix t ≤ time.Unix u.
Proof. intros H. unfold time.Unix, time.Second. apply Z.div_le_mono; lia. Qed.

Lemma Unix_bounds (t : time.Time) :
  time.Unix t * time.Second ≤ t < time.Unix t * time.Second + time.Second.
Proof.
  unfold time.Unix, time.Second.
  pose proof (Z.div_mod t 1000000000 ltac:(lia)) as Hdm.
  pose proof (Z.mod_pos_bound t 1000000000 ltac:(lia)) as Hb.
  lia.
Qed.

Lemma Unix_add_seconds (t : time.Time) (n : Z) :
  time.Unix (time.Add t (n * time.Second)) = time.Unix t + n.
Proof.
  unfold time.Unix, time.Add, time.Second. apply Z.div_add. lia.
Qed.

Lemma Unix_lt_of_second_apart (t u : time.Time) :
  t + time.Second ≤ u → time.Unix t < time.Unix u.
Proof.
  intros H.
  pose proof (Unix_bounds t) as Ht. pose proof (Unix_bounds u) as Hu.
  unfold time.Second in *. nia.
Qed.

(** ** Facts about the two loops over the map *)

Section Loops.

Context {any : Type}.
Implicit Types (m : gmap string (CacheItem any)) (c : Cache any).

Lemma foldl_collect (P : CacheItem any → bool)
    (l : list (string * CacheItem any)) (acc : list string) :
  foldl (λ keys kv, if P kv.2 then keys ++ [kv.1] else keys) acc l
  = acc ++ (filter (λ kv, P kv.2 = true) l).*1.
Proof.
  revert acc. induction l as [|[k i] l IH]; intros acc; simpl.
  - by rewrite app_nil_r.
  - rewrite IH. destruct (P i) eqn:HP.
    + rewrite filter_cons_True by done. simpl. by rewrite <- app_assoc.
    + rewrite filter_cons_False; [done|]. simpl. congruence.
Qed.

Lemma Keys_fst c : Keys c = (map_to_list (items c)).*1.
Proof.
  unfold Keys.
  rewrite (foldl_collect (λ _, true) (map_to_list (items c)) []). simpl.
  f_equal. induction (map_to_list (items c)) as [|kv l IH]; [done|].
  rewrite filter_cons_True by done. by rewrite IH.
Qed.

Lemma elem_of_Keys c key : key ∈ Keys c ↔ is_Some (items c !! key).
Proof.
  rewrite Keys_fst, list_elem_of_fmap. split.
  - intros [[k i] [-> Hin]]. apply elem_of_map_to_list in Hin. by exists i.
  - intros [i Hi]. exists (key, i). split; [done|]. by apply elem_of_map_to_list.
Qed.

Lemma NoDup_Keys c : NoDup (Keys c).
Proof. rewrite Keys_fst. apply NoDup_fst_map_to_list. Qed.

Lemma elem_of_expiredKeys now m key :
  key ∈ expiredKeys now m
  ↔ ∃ item, m !! key = Some item ∧ isExpired now item = true.
Proof.
  unfold expiredKeys. rewrite (foldl_collect (isExpired now)). simpl.
  rewrite list_elem_of_fmap. split.
  - intros [[k i] [-> Hin]]. apply list_elem_of_filter in Hin as [HP Hin].
    apply elem_of_map_to_list in Hin. by exists i.
  - intros [i [Hi HP]]. exists (key, i). split; [done|].
    apply list_elem_of_filter. split; [done|]. by apply elem_of_map_to_list.
Qed.

Lemma lookup_foldl_delete (ks : list string) m key :
  foldl (λ m k, delete k m) m ks !! key
  = if decide (key ∈ ks) then None else m !! key.
Proof.
  revert m. induction ks as [|k ks IH]; intros m; cbn [foldl].
  - by rewrite decide_False by apply not_elem_of_nil.
  - rewrite IH. destruct (decide (key ∈ ks)) as [Hin|Hnin].
    + rewrite decide_True; [done|]. apply elem_of_cons. by right.
    + destruct (decide (key = k)) as [->|Hne].
      * rewrite decide_True by (apply elem_of_cons; by left).
        apply lookup_delete_eq.
      * rewrite decide_False.
        -- by apply lookup_delete_ne.
        -- intros Hin. apply elem_of_cons in Hin as [?|?]; done.
Qed.

End Loops.

(** ** Properties of the single operations *)

Section Operations.

Context {any : Type} (nil : any).
Implicit Types (c : Cache any) (item : CacheItem any).

Lemma isExpired_true now item :
  isExpired now item = true ↔ 0 < Expiration item ∧ Expiration item ≤ now.
Proof. unfold isExpired. rewrite andb_true_iff, Z.ltb_lt, Z.leb_le. done. Qed.

Lemma isExpired_false now item :
  isExpired now item = false
  ↔ Expiration item ≤ 0 ∨ now < Expiration item.
Proof.
  unfold isExpired. rewrite andb_false_iff, Z.ltb_ge, Z.leb_gt. done.
Qed.

(** An item without expiration is expired at no time. *)
Lemma isExpired_zero now item : Expiration item = 0 → isExpired now item = false.
Proof. intros H. apply isExpired_false. lia. Qed.

(** The expiration [Set] computes from its variadic argument. *)
Lemma Set_lookup now key value ttl c :
  items (Set_ now key value ttl c) !! key
  = Some {| Value := value;
            Expiration :=
              match ttl with
              | ttl0 :: _ => if 0 <? ttl0 then time.Unix (time.Add now ttl0) else 0
              | [] => 0
              end |}.
Proof. unfold Set_. cbn [items]. apply lookup_insert_eq. Qed.

Lemma Set_lookup_ne now key value ttl c k :
  k ≠ key → items (Set_ now key value ttl c) !! k = items c !! k.
Proof. intros Hne. unfold Set_. cbn [items]. by apply lookup_insert_ne. Qed.

(** C1. For a key in the table: when its item has a positive expiration
    and the clock's Unix second has reached it, [Get] deletes the entry
    (and only that entry) and reports not-found; when the item is unexpired
    (expiration zero, or the clock strictly before a positive expiration)
    [Get] returns the stored value with [true]. For a key not in the table
    [Get] reports not-found. *)
Theorem Get_spec (now : time.Time) (key : string) c :
  (∀ item, items c !! key = Some item →
     0 < Expiration item → Expiration item ≤ time.Unix now →
     (Get nil now key c).1 = (nil, false)
     ∧ items (Get nil now key c).2 = delete key (items c)
     ∧ items (Get nil now key c).2 !! key = None)
  ∧ (∀ item, items c !! key = Some item →
       Expiration item = 0
       ∨ (0 < Expiration item ∧ time.Unix now < Expiration item) →
       (Get nil now key c).1 = (Value item, true))
  ∧ (items c !! key = None → (Get nil now key c).1 = (nil, false)).
Proof.
  unfold Get. split; [|split].
  - intros item Hitem Hpos Hpast. rewrite Hitem.
    rewrite (proj2 (isExpired_true (time.Unix now) item)) by done.
    cbn. split; [done|]. split; [done|]. apply lookup_delete_eq.
  - intros item Hitem Hlive. rewrite Hitem.
    rewrite (proj2 (isExpired_false (time.Unix now) item)) by lia. done.
  - intros Habs. by rewrite Habs.
Qed.

(** C10. [Get] on a key whose item is unexpired returns the stored value
    and leaves the whole cache as it was: no entry is modified, the item's
    expiration is not extended. *)
Theorem Get_unexpired_frame (now : time.Time) (key : string) c item :
  items c !! key = Some item →
  Expiration item = 0 ∨ (0 < Expiration item ∧ time.Unix now < Expiration item) →
  Get nil now key c = ((Value item, true), c).
Proof.
  intros Hitem Hlive. unfold Get. rewrite Hitem.
  rewrite (proj2 (isExpired_false (time.Unix now) item)) by lia. done.
Qed.

(** C9. [Set] without a TTL followed by [Get] of the same key returns the
    value just stored, with [true] (whatever the two clock readings). *)
Theorem Set_then_Get (now now' : time.Time) (key : string) (value : any) c :
  (Get nil now' key (Set_ now key value [] c)).1 = (value, true).
Proof.
  unfold Get. rewrite Set_lookup. cbn. done.
Qed.

(** C2. The entry [Set] stores: without a TTL argument, or with a first
    TTL argument that is not positive, its expiration is 0 and it is
    expired at no time; with a positive first TTL argument [d] its
    expiration is the Unix time, in whole seconds, of the instant
    [now + d], [now] being the clock reading of the call: the second in
    which that instant falls, which is [Unix now + n] for a TTL of [n]
    whole seconds. *)
Theorem Set_expiration (now : time.Time) (key : string) (value : any)
    (ttl : list time.Duration) c :
  (ttl = [] ∨ (∃ d rest, ttl = d :: rest ∧ d ≤ 0) →
     items (Set_ now key value ttl c) !! key
       = Some {| Value := value; Expiration := 0 |}
     ∧ ∀ t, isExpired t {| Value := value; Expiration := 0 |} = false)
  ∧ (∀ d rest, ttl = d :: rest → 0 < d →
       items (Set_ now key value ttl c) !! key
         = Some {| Value := value; Expiration := time.Unix (time.Add now d) |}
       ∧ time.Unix (time.Add now d) * time.Second ≤ now + d
           < time.Unix (time.Add now d) * time.Second + time.Second
       ∧ ∀ n, d = n * time.Second →
           time.Unix (time.Add now d) = time.Unix now + n).
Proof.
  split.
  - intros Hno. rewrite Set_lookup. split; [|intros t; by apply isExpired_zero].
    destruct Hno as [->|(d & rest & -> & Hd)]; [done|].
    by rewrite (proj2 (Z.ltb_ge 0 d)).
  - intros d rest -> Hd. rewrite Set_lookup.
    rewrite (proj2 (Z.ltb_lt 0 d)) by done. split; [done|]. split.
    + apply (Unix_bounds (time.Add now d)).
    + intros n ->. apply Unix_add_seconds.
Qed.

(** C5. [Set] on a key that already holds an entry replaces the entry:
    the value is the new one, the expiration is what the new TTL argument
    alone gives (0 when it is absent or not positive, the Unix second of
    [now + d] when it is a positive [d]), the result is the one [Set] gives
    once the old entry has been deleted, the table has the same keys as
    before and the entries of the other keys are untouched. *)
Theorem Set_overwrites (now : time.Time) (key : string) (v2 : any)
    (ttl2 : list time.Duration) c (old : CacheItem any) :
  items c !! key = Some old →
  (∃ e, items (Set_ now key v2 ttl2 c) !! key = Some {| Value := v2; Expiration := e |}
        ∧ (ttl2 = [] → e = 0)
        ∧ (∀ d rest, ttl2 = d :: rest → d ≤ 0 → e = 0)
        ∧ (∀ d rest, ttl2 = d :: rest → 0 < d → e = time.Unix (time.Add now d)))
  ∧ Set_ now key v2 ttl2 c = Set_ now key v2 ttl2 (Delete key c)
  ∧ (∀ k, is_Some (items (Set_ now key v2 ttl2 c) !! k) ↔ is_Some (items c !! k))
  ∧ ∀ k, k ≠ key → items (Set_ now key v2 ttl2 c) !! k = items c !! k.
Proof.
  intros Hold. split; [|split; [|split]].
  - eexists. split; [apply Set_lookup|]. split; [by intros ->|]. split.
    + intros d rest -> Hd. by rewrite (proj2 (Z.ltb_ge 0 d)).
    + intros d rest -> Hd. by rewrite (proj2 (Z.ltb_lt 0 d)).
  - unfold Set_, Delete. cbn [items stopCleanup]. f_equal.
    symmetry. apply insert_delete_eq.
  - intros k. destruct (decide (k = key)) as [->|Hne].
    + rewrite Set_lookup, Hold. split; intros _; by eexists.
    + by rewrite Set_lookup_ne.
  - intros k Hne. by apply Set_lookup_ne.
Qed.

End Operations.

(** ** Expiry of an entry set with a TTL *)

Section Expiry.

Context {any : Type} (nil : any).
Implicit Types (c : Cache any) (item : CacheItem any).

(** What [Get] answers for a key whose item is known. *)
Lemma Get_found now key c item :
  items c !! key = Some item →
  (Get nil now key c).1
  = if isExpired (time.Unix now) item then (nil, false) else (Value item, true).
Proof.
  intros Hitem. unfold Get. rewrite Hitem.
  by destruct (isExpired (time.Unix now) item).
Qed.

(** C3, as the code has it. [Set] at instant [s] with a positive TTL [d],
    the instant [s + d] being at least one second after the Unix epoch;
    [Get] runs [t] later. The entry is found exactly while the Unix second
    of the [Get] is strictly before the Unix second of [s + d], and
    reported not-found from that second on. Hence it is not found for any
    [t >= d], and it is found for any [t] at least one second short of
    [d]. *)
Theorem Set_then_Get_ttl (s : time.Time) (t d : time.Duration)
    (key : string) (value : any) c :
  0 < d →
  time.Second ≤ s + d →
  ((Get nil (time.Add s t) key (Set_ s key value [d] c)).1 = (value, true)
     ↔ time.Unix (time.Add s t) < time.Unix (time.Add s d))
  ∧ ((Get nil (time.Add s t) key (Set_ s key value [d] c)).1 = (nil, false)
     ↔ time.Unix (time.Add s d) ≤ time.Unix (time.Add s t))
  ∧ (d ≤ t →
     (Get nil (time.Add s t) key (Set_ s key value [d] c)).1 = (nil, false))
  ∧ (t + time.Second ≤ d →
     (Get nil (time.Add s t) key (Set_ s key value [d] c)).1 = (value, true)).
Proof.
  intros Hd Hepoch.
  assert (Hpos : 0 < time.Unix (time.Add s d)).
  { pose proof (Unix_bounds (time.Add s d)) as Hb.
    unfold time.Add, time.Second in *. lia. }
  rewrite (Get_found _ _ _ _ (Set_lookup s key value [d] c)).
  rewrite (proj2 (Z.ltb_lt 0 d)) by done. cbn [Value].
  set (e := time.Unix (time.Add s d)) in *.
  set (item := {| Value := value; Expiration := e |}).
  assert (Hexp : isExpired (time.Unix (time.Add s t)) item = true
                 ↔ e ≤ time.Unix (time.Add s t)).
  { rewrite isExpired_true. cbn [Expiration item]. lia. }
  assert (Hlate : d ≤ t → e ≤ time.Unix (time.Add s t)).
  { intros Hle. apply Unix_mono. unfold time.Add. lia. }
  assert (Hearly : t + time.Second ≤ d → time.Unix (time.Add s t) < e).
  { intros Hle. apply Unix_lt_of_second_apart. unfold time.Add. lia. }
  destruct (isExpired (time.Unix (time.Add s t)) item) eqn:Hx.
  - apply proj1 in Hexp. specialize (Hexp eq_refl).
    repeat split; intros; try done; lia.
  - assert (time.Unix (time.Add s t) < e) as Hlt.
    { destruct (Z.le_gt_cases e (time.Unix (time.Add s t))) as [Hle|Hgt]; [|lia].
      apply Hexp in Hle. congruence. }
    repeat split; intros; try done; lia.
Qed.

(** The first loop of [deleteExpired] collects exactly the keys whose item
    has a positive expiration that the Unix second [now] has reached. *)
Lemma expiredKeys_spec (now : Z) (m : gmap string (CacheItem any)) key :
  key ∈ expiredKeys now m
  ↔ ∃ item, m !! key = Some item ∧ 0 < Expiration item ∧ Expiration item ≤ now.
Proof.
  rewrite elem_of_expiredKeys. split.
  - intros (item & Hitem & Hx). exists item. split; [done|].
    by apply isExpired_true.
  - intros (item & Hitem & Hx). exists item. split; [done|].
    by apply isExpired_true.
Qed.

(** The table a sweep leaves, key by key. *)
Lemma deleteExpired_lookup now c key :
  items (deleteExpired now c) !! key
  = match items c !! key with
    | Some item => if isExpired (time.Unix now) item then None else Some item
    | None => None
    end.
Proof.
  unfold deleteExpired. cbn [items]. rewrite lookup_foldl_delete.
  destruct (decide (key ∈ expiredKeys (time.Unix now) (items c))) as [Hin|Hnin].
  - apply elem_of_expiredKeys in Hin as (item & -> & ->). done.
  - destruct (items c !! key) as [item|] eqn:Hitem; [|done].
    destruct (isExpired (time.Unix now) item) eqn:Hx; [|done].
    exfalso. apply Hnin. apply elem_of_expiredKeys. eauto.
Qed.

(** C4. A sweep takes one clock reading [now]. Its first loop collects,
    from the table as it stands, exactly the keys whose item has a positive
    expiration at or before the Unix second of [now]; only then does its
    second loop delete the collected keys. The collected keys are gone
    afterwards; every other entry, and so every entry without expiration,
    is as before. *)
Theorem deleteExpired_spec (now : time.Time) c :
  (∀ key, key ∈ expiredKeys (time.Unix now) (items c)
          ↔ ∃ item, items c !! key = Some item
                    ∧ 0 < Expiration item ∧ Expiration item ≤ time.Unix now)
  ∧ items (deleteExpired now c)
    = foldl (λ m key, delete key m) (items c)
            (expiredKeys (time.Unix now) (items c))
  ∧ (∀ key, key ∈ expiredKeys (time.Unix now) (items c) →
            items (deleteExpired now c) !! key = None)
  ∧ (∀ key, key ∉ expiredKeys (time.Unix now) (items c) →
            items (deleteExpired now c) !! key = items c !! key)
  ∧ (∀ key item, items c !! key = Some item → Expiration item = 0 →
                 items (deleteExpired now c) !! key = Some item)
  ∧ stopCleanup (deleteExpired now c) = stopCleanup c.
Proof.
  split; [intros key; apply expiredKeys_spec|].
  split; [done|].
  split; [|split; [|split; [|done]]].
  - intros key Hin. unfold deleteExpired. cbn [items].
    rewrite lookup_foldl_delete. by rewrite decide_True.
  - intros key Hnin. unfold deleteExpired. cbn [items].
    rewrite lookup_foldl_delete. by rewrite decide_False.
  - intros key item Hitem Hzero. rewrite deleteExpired_lookup, Hitem.
    by rewrite isExpired_zero.
Qed.

End Expiry.

(** ** Runs of the cache and its cleanup goroutine *)

Section Runs.

Context {any : Type} (nil : any).
Implicit Types (c : Cache any) (item : CacheItem any) (w : World any).











(** C6. [Keys] lists exactly the keys of the table, each once, whatever
    their expiration. In the state reached from a new cache by
    [Set("a", nil, 1s)] at second 10 the item of ["a"] has a positive
    expiration that has passed by second 20: [Get] at second 20 would
    report it not-found, and [Keys] still lists it. *)
Theorem Keys_unfiltered :
  (∀ c key, key ∈ Keys c ↔ is_Some (items c !! key))
  ∧ (∀ c, NoDup (Keys c))
  ∧ ∃ w item (now : time.Time),
      steps nil NewWorld
            [LCall (CallSet (10 * time.Second) "a" nil [1 * time.Second])] w
      ∧ items (cache w) !! "a"%string = Some item
      ∧ 0 < Expiration item
      ∧ Expiration item ≤ time.Unix now
      ∧ (Get nil now "a" (cache w)).1 = (nil, false)
      ∧ "a"%string ∈ Keys (cache w).
Proof.
  split; [apply elem_of_Keys|]. split; [apply NoDup_Keys|].
  eexists _, _, (20 * time.Second).
  split.
  { eapply steps_cons; [|apply steps_nil].
    apply (step_call nil (CallSet _ _ _ _) NewWorld). reflexivity. }
  cbn [cache].
  split; [apply Set_lookup|].
  split; [reflexivity|]. split; [by vm_compute|]. split.
  - rewrite (Get_found nil _ _ _ _ (Set_lookup _ _ _ _ _)). reflexivity.
  - apply elem_of_Keys. rewrite Set_lookup. by eexists.
Qed.

End Runs.

(** ** How the operations compose *)

Section Composition.

Context {any : Type} (nil : any).
Implicit Types (c : Cache any) (item : CacheItem any).

Lemma Cache_eq c1 c2 :
  items c1 = items c2 → stopCleanup c1 = stopCleanup c2 → c1 = c2.
Proof. destruct c1, c2. cbn. by intros -> ->. Qed.

(** The table [Get] leaves, key by key. *)
Lemma Get_state_lookup now key c k :
  items (Get nil now key c).2 !! k
  = if decide (k = key)
    then match items c !! key with
         | Some item => if isExpired (time.Unix now) item then None else Some item
         | None => None
         end
    else items c !! k.
Proof.
  unfold Get. destruct (items c !! key) as [item|] eqn:Hitem.
  - destruct (isExpired (time.Unix now) item); cbn.
    + destruct (decide (k = key)) as [->|Hne].
      * apply lookup_delete_eq.
      * by apply lookup_delete_ne.
    + destruct (decide (k = key)) as [->|Hne]; done.
  - cbn. destruct (decide (k = key)) as [->|Hne]; done.
Qed.

Lemma Get_stopCleanup now key c :
  stopCleanup (Get nil now key c).2 = stopCleanup c.
Proof.
  unfold Get. destruct (items c !! key) as [item|]; [|done].
  by destruct (isExpired (time.Unix now) item).
Qed.

(** Whether [Get] finds the key. *)
Lemma Get_found_iff now key c :
  (Get nil now key c).1.2 = true
  ↔ ∃ item, items c !! key = Some item ∧ isExpired (time.Unix now) item = false.
Proof.
  unfold Get. destruct (items c !! key) as [item|] eqn:Hitem.
  - destruct (isExpired (time.Unix now) item) eqn:Hx; cbn.
    + split; [done|]. intros (item' & Heq & Hx'). congruence.
    + split; [|done]. intros _. by exists item.
  - cbn. split; [done|]. by intros (item' & Heq & _).
Qed.

Lemma Get_not_found_result now key c :
  (Get nil now key c).1.2 = false → (Get nil now key c).1 = (nil, false).
Proof.
  unfold Get. destruct (items c !! key) as [item|]; [|done].
  by destruct (isExpired (time.Unix now) item).
Qed.

Lemma isExpired_mono (n n' : Z) item :
  n ≤ n' → isExpired n item = true → isExpired n' item = true.
Proof. rewrite !isExpired_true. lia. Qed.

Lemma Keys_length c : length (Keys c) = size (items c).
Proof. rewrite Keys_fst, length_fmap. apply length_map_to_list. Qed.

(** X1. [Delete] of a key that is not in the table changes nothing. *)
Theorem Delete_absent (key : string) c :
  items c !! key = None → Delete key c = c.
Proof.
  intros Habs. apply Cache_eq; [|done]. cbn. by apply delete_id.
Qed.

(** X2. After [Delete] the key is gone: deleting it again changes nothing, [Get]
    of it reports not-found at any time and [Keys] does not list it, while
    the answers for the other keys, and their listing, are as before. *)
Theorem Delete_spec (key : string) c :
  Delete key (Delete key c) = Delete key c
  ∧ (∀ now, Get nil now key (Delete key c) = ((nil, false), Delete key c))
  ∧ (∀ now k, k ≠ key →
       (Get nil now k (Delete key c)).1 = (Get nil now k c).1)
  ∧ (∀ k, k ∈ Keys (Delete key c) ↔ k ∈ Keys c ∧ k ≠ key).
Proof.
  split; [|split; [|split]].
  - apply Cache_eq; [|done]. cbn. apply delete_delete_eq.
  - intros now. unfold Get. cbn [Delete items]. by rewrite lookup_delete_eq.
  - intros now k Hne. unfold Get. cbn [Delete items].
    rewrite lookup_delete_ne by done.
    destruct (items c !! k) as [item|]; [|done].
    by destruct (isExpired (time.Unix now) item).
  - intros k. rewrite !elem_of_Keys. cbn [Delete items].
    destruct (decide (k = key)) as [->|Hne].
    + rewrite lookup_delete_eq. split; [by intros [? ?]|by intros [_ ?]].
    + rewrite lookup_delete_ne by done. split; [by intros ?|by intros [? _]].
Qed.

(** X3. [Clear] empties the table and leaves the channel alone: no key is
    listed, every [Get] reports not-found, a sweep finds nothing to do, and
    a cache that has not been closed is back in the state of a new one. *)
Theorem Clear_spec c :
  Keys (Clear c) = []
  ∧ (∀ now key, Get nil now key (Clear c) = ((nil, false), Clear c))
  ∧ (∀ now, deleteExpired now (Clear c) = Clear c)
  ∧ stopCleanup (Clear c) = stopCleanup c
  ∧ (stopCleanup c = chan_open → Clear c = NewCache).
Proof.
  split; [|split; [|split; [|split]]].
  - unfold Keys, Clear. cbn [items]. by rewrite map_to_list_empty.
  - intros now key. unfold Get, Clear. cbn [items]. by rewrite lookup_empty.
  - intros now. apply Cache_eq; [|done].
    unfold deleteExpired, expiredKeys, Clear. cbn [items].
    by rewrite map_to_list_empty.
  - done.
  - intros Hopen. by apply Cache_eq.
Qed.

(** X4. [Keys] returns as many keys as the table has entries. [Set] makes the
    list one longer when the key is new and leaves its length alone when
    the key is already there; [Delete] makes it one shorter when the key is
    there and leaves its length alone otherwise. *)
Theorem Keys_count (now : time.Time) (key : string) (value : any)
    (ttl : list time.Duration) c :
  length (Keys c) = size (items c)
  ∧ length (Keys (Set_ now key value ttl c))
    = match items c !! key with
      | Some _ => length (Keys c)
      | None => S (length (Keys c))
      end
  ∧ length (Keys (Delete key c))
    = match items c !! key with
      | Some _ => pred (length (Keys c))
      | None => length (Keys c)
      end.
Proof.
  rewrite !Keys_length. split; [done|]. split.
  - unfold Set_. cbn [items]. rewrite map_size_insert.
    by destruct (items c !! key).
  - unfold Delete. cbn [items]. rewrite map_size_delete.
    by destruct (items c !! key).
Qed.

(** X5. [Get] writes nothing but the deletion of its own expired key: the
    channel and the entries of all other keys are as before, and no entry
    appears or changes. *)
Theorem Get_frame (now : time.Time) (key : string) c :
  stopCleanup (Get nil now key c).2 = stopCleanup c
  ∧ items (Get nil now key c).2 ⊆ items c
  ∧ ∀ k, k ≠ key → items (Get nil now key c).2 !! k = items c !! k.
Proof.
  split; [|split].
  - apply Get_stopCleanup.
  - apply map_subseteq_spec. intros k item. rewrite Get_state_lookup.
    destruct (decide (k = key)) as [->|Hne]; [|done].
    destruct (items c !! key) as [item'|]; [|done].
    by destruct (isExpired (time.Unix now) item').
  - intros k Hne. rewrite Get_state_lookup. by rewrite decide_False.
Qed.

(** X6. What a [Get] leaves behind. When it reports not-found the key is not
    in the table afterwards: [Keys] does not list it and every further
    [Get] of it, at whatever clock reading, reports not-found and changes
    nothing. When it reports found the cache is unchanged and [Keys] lists
    the key. *)
Theorem Get_outcome (now : time.Time) (key : string) c :
  ((Get nil now key c).1.2 = false →
     (key ∉ Keys (Get nil now key c).2)
     ∧ ∀ now', Get nil now' key (Get nil now key c).2
               = ((nil, false), (Get nil now key c).2))
  ∧ ((Get nil now key c).1.2 = true →
       (Get nil now key c).2 = c ∧ key ∈ Keys c).
Proof.
  split.
  - intros Hnf.
    assert (Hgone : items (Get nil now key c).2 !! key = None).
    { rewrite Get_state_lookup, decide_True by done.
      destruct (items c !! key) as [item|] eqn:Hitem; [|done].
      destruct (isExpired (time.Unix now) item) eqn:Hx; [done|].
      assert ((Get nil now key c).1.2 = true) as Hf; [|congruence].
      apply Get_found_iff. eauto. }
    split.
    + rewrite elem_of_Keys, Hgone. by intros [? ?].
    + intros now'. unfold Get at 1. by rewrite Hgone.
  - intros Hf. apply Get_found_iff in Hf as (item & Hitem & Hx). split.
    + unfold Get. by rewrite Hitem, Hx.
    + apply elem_of_Keys. by exists item.
Qed.

(** X7. Expiry is permanent while the clock does not go back: a key that [Get]
    reports not-found at one clock reading is reported not-found by [Get]
    on the same cache at every later reading. *)
Theorem Get_not_found_later (now now' : time.Time) (key : string) c :
  (Get nil now key c).1.2 = false →
  now ≤ now' →
  (Get nil now' key c).1 = (nil, false).
Proof.
  intros Hnf Hle. apply Get_not_found_result.
  destruct ((Get nil now' key c).1.2) eqn:Hf; [|done].
  apply Get_found_iff in Hf as (item & Hitem & Hx').
  destruct (isExpired (time.Unix now) item) eqn:Hx.
  - apply (isExpired_mono _ (time.Unix now')) in Hx; [congruence|].
    by apply Unix_mono.
  - assert ((Get nil now key c).1.2 = true) as Hf; [|congruence].
    apply Get_found_iff. eauto.
Qed.

End Composition.

(** ** Writes, reads and sweeps together *)

Section Sweeps.

Context {any : Type} (nil : any).
Implicit Types (c : Cache any) (item : CacheItem any).

Lemma Unix_max (t u : time.Time) :
  time.Unix (Z.max t u) = Z.max (time.Unix t) (time.Unix u).
Proof.
  destruct (Z.max_spec t u) as [[Hlt ->]|[Hle ->]].
  - rewrite Z.max_r; [done|]. apply Unix_mono. lia.
  - rewrite Z.max_l; [done|]. by apply Unix_mono.
Qed.

Lemma isExpired_max (n n' : Z) item :
  isExpired (Z.max n n') item = isExpired n item || isExpired n' item.
Proof.
  unfold isExpired. destruct (0 <? Expiration item); cbn [andb]; [|done].
  destruct (Expiration item <=? n) eqn:H1, (Expiration item <=? n') eqn:H2;
    cbn [orb]; rewrite ?Z.leb_le, ?Z.leb_gt in *; lia.
Qed.

(** X8. [Set] on the same key twice keeps only the second write; [Set]s of
    different keys give the same cache in either order; [Delete] after [Set]
    of the same key leaves what [Delete] alone would. *)
Theorem Set_compose (n1 n2 : time.Time) (key : string) (v1 v2 : any)
    (t1 t2 : list time.Duration) c :
  Set_ n2 key v2 t2 (Set_ n1 key v1 t1 c) = Set_ n2 key v2 t2 c
  ∧ (∀ k2, key ≠ k2 →
       Set_ n2 k2 v2 t2 (Set_ n1 key v1 t1 c)
       = Set_ n1 key v1 t1 (Set_ n2 k2 v2 t2 c))
  ∧ Delete key (Set_ n1 key v1 t1 c) = Delete key c.
Proof.
  split; [|split].
  - apply Cache_eq; [|done]. cbn. apply insert_insert_eq.
  - intros k2 Hne. apply Cache_eq; [|done]. cbn. by apply insert_insert_ne.
  - apply Cache_eq; [|done]. cbn. apply delete_insert_eq.
Qed.

(** X9. Two sweeps amount to one sweep at the later of their clock readings,
    in whichever order they run. *)
Theorem deleteExpired_twice (now1 now2 : time.Time) c :
  deleteExpired now1 (deleteExpired now2 c) = deleteExpired (Z.max now1 now2) c.
Proof.
  apply Cache_eq; [|done]. apply map_eq. intros k.
  rewrite !deleteExpired_lookup.
  destruct (items c !! k) as [item|]; [|done].
  rewrite Unix_max, isExpired_max.
  destruct (isExpired (time.Unix now2) item) eqn:H2.
  - by rewrite orb_true_r.
  - by rewrite orb_false_r.
Qed.

(** X10. A sweep and a [Get] leave the same cache in either order; and a sweep
    does not change what a [Get] answers at the same or a later clock
    reading than the sweep's. *)
Theorem deleteExpired_Get (now1 now2 : time.Time) (key : string) c :
  deleteExpired now1 (Get nil now2 key c).2
  = (Get nil now2 key (deleteExpired now1 c)).2
  ∧ (now1 ≤ now2 →
     (Get nil now2 key (deleteExpired now1 c)).1 = (Get nil now2 key c).1).
Proof.
  split.
  - apply Cache_eq.
    + apply map_eq. intros k.
      rewrite deleteExpired_lookup, !Get_state_lookup, !deleteExpired_lookup.
      destruct (decide (k = key)) as [->|Hne]; [|done].
      destruct (items c !! key) as [item|]; [|done].
      destruct (isExpired (time.Unix now2) item) eqn:H2,
               (isExpired (time.Unix now1) item) eqn:H1;
        rewrite ?H1, ?H2; done.
    + cbn. by rewrite !Get_stopCleanup.
  - intros Hle. unfold Get. rewrite deleteExpired_lookup.
    destruct (items c !! key) as [item|]; [|done].
    destruct (isExpired (time.Unix now1) item) eqn:H1.
    + rewrite (isExpired_mono (time.Unix now1) (time.Unix now2)); [done| |done].
      by apply Unix_mono.
    + by destruct (isExpired (time.Unix now2) item).
Qed.

(** X11. After a sweep, [Keys] lists exactly the keys that [Get] finds at the
    clock reading of the sweep. *)
Theorem Keys_after_sweep (now : time.Time) (key : string) c :
  key ∈ Keys (deleteExpired now c) ↔ (Get nil now key c).1.2 = true.
Proof.
  rewrite elem_of_Keys, deleteExpired_lookup, Get_found_iff.
  destruct (items c !! key) as [item|].
  - destruct (isExpired (time.Unix now) item) eqn:Hx.
    + split; [by intros [? ?]|]. intros (item' & Heq & Hx'). congruence.
    + split; [|by eexists]. intros _. by exists item.
  - split; [by intros [? ?]|]. by intros (item' & Heq & _).
Qed.

(** X12. Background reclamation. An entry stored with a positive TTL [d] at
    instant [s], the instant [s + d] being at least one second after the
    epoch, survives a sweep exactly when the Unix second of the sweep is
    before the Unix second of [s + d]; any sweep at or after [s + d] removes
    it from the table. *)
Theorem Set_then_sweep (s u : time.Time) (d : time.Duration)
    (key : string) (value : any) c :
  0 < d →
  time.Second ≤ s + d →
  (key ∈ Keys (deleteExpired u (Set_ s key value [d] c))
     ↔ time.Unix u < time.Unix (time.Add s d))
  ∧ (s + d ≤ u →
     items (deleteExpired u (Set_ s key value [d] c)) !! key = None).
Proof.
  intros Hd Hepoch.
  assert (Hpos : 0 < time.Unix (time.Add s d)).
  { pose proof (Unix_bounds (time.Add s d)) as Hb.
    unfold time.Add, time.Second in *. lia. }
  assert (Hlook : items (deleteExpired u (Set_ s key value [d] c)) !! key
                  = if time.Unix (time.Add s d) <=? time.Unix u
                    then None
                    else Some {| Value := value;
                                 Expiration := time.Unix (time.Add s d) |}).
  { rewrite deleteExpired_lookup, Set_lookup.
    rewrite (proj2 (Z.ltb_lt 0 d)) by done.
    unfold isExpired. cbn [Expiration].
    by rewrite (proj2 (Z.ltb_lt 0 _) Hpos). }
  split.
  - rewrite elem_of_Keys, Hlook.
    destruct (time.Unix (time.Add s d) <=? time.Unix u) eqn:Hcmp.
    + apply Z.leb_le in Hcmp. split; [by intros [? ?]|lia].
    + apply Z.leb_gt in Hcmp. split; [done|]. intros _. by eexists.
  - intros Hle. rewrite Hlook.
    rewrite (proj2 (Z.leb_le _ _)); [done|].
    apply Unix_mono. unfold time.Add. lia.
Qed.

Lemma expiredKeys_filter (now : Z) (m : gmap string (CacheItem any)) :
  expiredKeys now m
  = (filter (λ kv, isExpired now kv.2 = true) (map_to_list m)).*1.
Proof. unfold expiredKeys. by rewrite (foldl_collect (isExpired now)). Qed.

Lemma NoDup_filter_keys (P : string * CacheItem any → Prop)
    `{!∀ kv, Decision (P kv)} (m : gmap string (CacheItem any)) :
  NoDup (filter P (map_to_list m)).*1.
Proof.
  apply (sublist_NoDup _ (map_to_list m).*1); [apply NoDup_fst_map_to_list|].
  apply fmap_sublist, sublist_filter.
Qed.

(** X13. A sweep only takes entries away, and as many as its first loop
    collected keys: the collected keys are distinct, the table after the
    sweep is part of the table before, and [Keys] afterwards is shorter by
    the number of collected keys. *)
Theorem deleteExpired_count (now : time.Time) c :
  NoDup (expiredKeys (time.Unix now) (items c))
  ∧ items (deleteExpired now c) ⊆ items c
  ∧ (length (Keys (deleteExpired now c))
     + length (expiredKeys (time.Unix now) (items c))
     = length (Keys c))%nat.
Proof.
  split; [|split].
  - rewrite expiredKeys_filter. apply NoDup_filter_keys.
  - apply map_subseteq_spec. intros k item. rewrite deleteExpired_lookup.
    destruct (items c !! k) as [item'|]; [|done].
    by destruct (isExpired (time.Unix now) item').
  - assert (Hperm : Keys (deleteExpired now c)
              ≡ₚ (filter (λ kv, ¬ (isExpired (time.Unix now) kv.2 = true))
                         (map_to_list (items c))).*1).
    { apply NoDup_Permutation; [apply NoDup_Keys|apply NoDup_filter_keys|].
      intros k. rewrite elem_of_Keys, deleteExpired_lookup, list_elem_of_fmap.
      split.
      - destruct (items c !! k) as [item|] eqn:Hitem; [|by intros [? ?]].
        destruct (isExpired (time.Unix now) item) eqn:Hx; [by intros [? ?]|].
        intros _. exists (k, item). split; [done|].
        apply list_elem_of_filter. split; [cbn; congruence|].
        by apply elem_of_map_to_list.
      - intros ([k' item] & -> & Hin).
        apply list_elem_of_filter in Hin as [HP Hin].
        apply elem_of_map_to_list in Hin. cbn in *. rewrite Hin.
        destruct (isExpired (time.Unix now) item); [done|]. by eexists. }
    rewrite Hperm, expiredKeys_filter, Keys_fst, !length_fmap.
    rewrite Nat.add_comm, <- List.length_app.
    by rewrite (filter_app_complement
                  (λ kv, isExpired (time.Unix now) kv.2 = true)
                  (map_to_list (items c))).
Qed.

(** X14. [Set] reads and lists: the key it wrote is listed by [Keys], and for
    every other key [Get] answers, and [Keys] lists, as before. *)
Theorem Set_frame (now : time.Time) (key : string) (value : any)
    (ttl : list time.Duration) c :
  key ∈ Keys (Set_ now key value ttl c)
  ∧ (∀ k, k ≠ key → (k ∈ Keys (Set_ now key value ttl c) ↔ k ∈ Keys c))
  ∧ (∀ now' k, k ≠ key →
       (Get nil now' k (Set_ now key value ttl c)).1 = (Get nil now' k c).1).
Proof.
  split; [|split].
  - rewrite elem_of_Keys, Set_lookup. by eexists.
  - intros k Hne. by rewrite !elem_of_Keys, Set_lookup_ne.
  - intros now' k Hne. unfold Get. rewrite Set_lookup_ne by done.
    destruct (items c !! k) as [item|]; [|done].
    by destruct (isExpired (time.Unix now') item).
Qed.

(** X15. A TTL too short to reach the next second. When the clock reads at
    least one second past the epoch and [now + d] falls in the same Unix
    second as [now], the entry [Set] stores is expired from the start:
    [Get] reports it not-found at the clock reading of the [Set] and at
    every later one. *)
Theorem Set_short_ttl (s t : time.Time) (d : time.Duration)
    (key : string) (value : any) c :
  0 < d →
  time.Second ≤ s →
  time.Unix (time.Add s d) = time.Unix s →
  s ≤ t →
  (Get nil t key (Set_ s key value [d] c)).1 = (nil, false).
Proof.
  intros Hd Hepoch Hsame Hle. unfold Get. rewrite Set_lookup.
  rewrite (proj2 (Z.ltb_lt 0 d)) by done.
  rewrite (proj2 (isExpired_true _ _)); [done|]. cbn [Expiration].
  rewrite Hsame. split; [|by apply Unix_mono].
  pose proof (Unix_bounds s) as Hb. unfold time.Second in *. lia.
Qed.

(** X16. The expiration 0 doubles as "no expiration". A positive TTL whose end
    [now + d] lies less than one second after the epoch stores an
    expiration that is not positive, and the entry never expires. *)
Theorem Set_ttl_before_epoch (s t : time.Time) (d : time.Duration)
    (key : string) (value : any) c :
  0 < d →
  s + d < time.Second →
  Get nil t key (Set_ s key value [d] c)
  = ((value, true), Set_ s key value [d] c).
Proof.
  intros Hd Hearly. unfold Get. rewrite Set_lookup.
  rewrite (proj2 (Z.ltb_lt 0 d)) by done.
  rewrite (proj2 (isExpired_false _ _)); [done|]. cbn [Expiration]. left.
  pose proof (Unix_bounds (time.Add s d)) as Hb.
  unfold time.Add, time.Second in *. lia.
Qed.

End Sweeps.

(** ** Invariants of runs *)

Section Invariants.

Context {any : Type} (nil : any).
Implicit Types (c : Cache any) (item : CacheItem any) (w : World any).

Lemma fire_step l w w' : fire nil l w = Some w' ↔ step nil w l w'.
Proof.
  split.
  - destruct l as [op| |cs now]; cbn.
    + destruct (exec nil op (cache w)) as [c'|msg] eqn:Hexec; [|done].
      intros [= <-]. by apply step_call.
    + destruct (reaper w) eqn:Hrun; [|done].
      intros [= <-]. by apply step_tick.
    + destruct (reaper w) eqn:Hrun; [|done].
      destruct (canProceed w cs) eqn:Hcan; [|done].
      intros [= <-]. by apply step_select.
  - intros [op w0 c' Hexec|w0 Hrun|cs now w0 Hrun Hcan]; cbn.
    + by rewrite Hexec.
    + by rewrite Hrun.
    + by rewrite Hrun, Hcan.
Qed.

Lemma run_steps ls w w' : run nil ls w = Some w' ↔ steps nil w ls w'.
Proof.
  revert w. induction ls as [|l ls IH]; intros w; cbn.
  - split; [intros [= <-]; apply steps_nil|]. by inversion 1.
  - split.
    + destruct (fire nil l w) as [w1|] eqn:Hfire; [|done].
      intros Hrun. eapply steps_cons; [by apply fire_step|by apply IH].
    + inversion 1 as [|? ? w1 ? ? Hstep Hrest]; subst.
      apply fire_step in Hstep. rewrite Hstep. by apply IH.
Qed.


Lemma agrees_refl (o : option (CacheItem any)) : agrees o o.
Proof. by split. Qed.

Lemma agrees_expire (now : Z) acc (o : option (CacheItem any)) :
  agrees acc o →
  agrees acc match o with
             | Some item => if isExpired now item then None else Some item
             | None => None
             end.
Proof.
  intros [Hin Hdur]. split.
  - intros item Heq. apply Hin. destruct o as [item'|]; [|done].
    by destruct (isExpired now item').
  - intros item Hacc Hexp. rewrite (Hdur item Hacc Hexp).
    rewrite (proj2 (isExpired_false now item)); [done|]. by left.
Qed.

Lemma step_agrees (key : string) w l w' acc :
  step nil w l w' →
  agrees acc (items (cache w) !! key) →
  agrees (write key acc l) (items (cache w') !! key).
Proof.
  intros Hstep Hag.
  destruct Hstep as [op w c' Hexec|w Hrun|cs now w Hrun Hcan]; cbn [cache].
  - destruct op as [now k value ttl|now k|k| | |]; cbn in Hexec; cbn [write].
    + injection Hexec as <-. case_bool_decide as Hk.
      * subst k. rewrite Set_lookup. apply agrees_refl.
      * by rewrite Set_lookup_ne.
    + injection Hexec as <-. rewrite Get_state_lookup.
      destruct (decide (key = k)) as [->|Hne]; [|done].
      by apply agrees_expire.
    + injection Hexec as <-. cbn. case_bool_decide as Hk.
      * subst k. rewrite lookup_delete_eq. apply agrees_refl.
      * by rewrite lookup_delete_ne.
    + injection Hexec as <-. cbn. rewrite lookup_empty. apply agrees_refl.
    + by injection Hexec as <-.
    + unfold Close in Hexec.
      destruct (stopCleanup (cache w)); [|discriminate].
      by injection Hexec as <-.
  - done.
  - destruct cs; cbn [startCleanup cache write]; [|done].
    rewrite deleteExpired_lookup. by apply agrees_expire.
Qed.

Lemma steps_agrees (key : string) w ls w' acc :
  steps nil w ls w' →
  agrees acc (items (cache w) !! key) →
  agrees (foldl (write key) acc ls) (items (cache w') !! key).
Proof.
  intros Hsteps. revert acc.
  induction Hsteps as [|w l w' ls w'' Hstep _ IH]; intros acc Hag; [done|].
  cbn [foldl]. apply IH. by eapply step_agrees.
Qed.

(** X17. No stale reads. Along any run, when [Get] finds a key the value it
    returns is the one of the last [Set] of that key in the run (or the
    entry the run started with, if the run has written none), no [Delete]
    of the key nor [Clear] has come after that [Set], and the expiration
    that [Set] stored has not passed at the clock reading of the [Get]. *)
Theorem Get_returns_last_write w ls w' (now : time.Time) (key : string)
    (value : any) :
  steps nil w ls w' →
  (Get nil now key (cache w')).1 = (value, true) →
  ∃ item, lastWrite key (items (cache w) !! key) ls = Some item
          ∧ Value item = value
          ∧ isExpired (time.Unix now) item = false.
Proof.
  intros Hsteps Hget.
  pose proof (steps_agrees key w ls w' _ Hsteps (agrees_refl _)) as [Hin _].
  unfold Get in Hget.
  destruct (items (cache w') !! key) as [item|] eqn:Hitem; [|by inversion Hget].
  destruct (isExpired (time.Unix now) item) eqn:Hx; [by inversion Hget|].
  exists item. split; [by apply Hin|]. split; [by inversion Hget|done].
Qed.







Lemma lastWrite_origin (key : string) (ls : list (label any)) acc item :
  foldl (write key) acc ls = Some item →
  acc = Some item
  ∨ ∃ now value ttl,
      LCall (CallSet now key value ttl) ∈ ls ∧ item = stored now value ttl.
Proof.
  revert acc. induction ls as [|l ls IH]; intros acc; cbn [foldl]; [by left|].
  intros Hlast. destruct (IH _ Hlast) as [Hacc|(now & value & ttl & Hin & ->)].
  - destruct l as [[now k value ttl|now k|k| | |]| |cs now]; cbn [write] in Hacc;
      try (by left).
    + case_bool_decide as Hk; [|by left]. subst k. right.
      exists now, value, ttl. split; [apply elem_of_cons; by left|congruence].
    + case_bool_decide; [done|by left].
  - right. exists now, value, ttl. split; [|done]. apply elem_of_cons. by right.
Qed.

(** X21. A new cache holds only what was put into it. In every run from
    [NewCache], each key that [Keys] lists was set by a [Set] call of the
    run, and its entry is the item that call stored. *)
Theorem new_cache_holds_what_was_set ls (w : World any) (key : string) :
  steps nil NewWorld ls w →
  key ∈ Keys (cache w) →
  ∃ now value ttl,
    LCall (CallSet now key value ttl) ∈ ls
    ∧ items (cache w) !! key = Some (stored now value ttl).
Proof.
  intros Hsteps Hin. apply elem_of_Keys in Hin as [item Hitem].
  pose proof (steps_agrees key NewWorld ls w _ Hsteps (agrees_refl _)) as [Hag _].
  apply Hag in Hitem as Hlast.
  destruct (lastWrite_origin key ls _ item Hlast)
    as [Hinit|(now & value & ttl & Hmem & ->)].
  - cbn in Hinit. by rewrite lookup_empty in Hinit.
  - by exists now, value, ttl.
Qed.

End Invariants.

(** ** The operations at work

    Values are optional strings here, [None] standing for Go's [nil]. *)

Definition at_ms (ms : Z) : time.Time := ms * time.Millisecond.

(** The scenario of the specification: [Set("a", "x", 2s)], [Set("b", "y")],
    then [Get("a")] at once, and [Get("a")], [Get("b")] three seconds on. *)
Definition scenario : Cache (option string) :=
  Set_ (at_ms 10000) "b" (Some "y"%string) []
    (Set_ (at_ms 10000) "a" (Some "x"%string) [2 * time.Second] NewCache).

Example scenario_get_a_at_once :
  (Get None (at_ms 10000) "a" scenario).1 = (Some "x"%string, true).
Proof. vm_compute. reflexivity. Qed.

Example scenario_get_a_later :
  (Get None (at_ms 13000) "a" scenario).1 = (None, false).
Proof. vm_compute. reflexivity. Qed.

Example scenario_get_b_later :
  (Get None (at_ms 13000) "b" scenario).1 = (Some "y"%string, true).
Proof. vm_compute. reflexivity. Qed.

Example scenario_sweep :
  Keys (deleteExpired (at_ms 13000) scenario) = ["b"%string].
Proof. vm_compute. reflexivity. Qed.

(** C3 as the specification words it fails: an entry can be reported
    not-found before its TTL has elapsed. [Set] at 10.9s with a TTL of 2s
    stores expiration 12 (the Unix second of 12.9s), so [Get] 1.1s later, at
    12.0s, finds it expired; [Set] at 10.2s with a TTL of 500ms stores
    expiration 10, so [Get] at once finds it expired. *)
Lemma Get_within_ttl_not_found :
  (0 < 2 * time.Second
   ∧ 0 ≤ 1100 * time.Millisecond < 2 * time.Second
   ∧ (Get None (time.Add (at_ms 10900) (1100 * time.Millisecond)) "k"
        (Set_ (at_ms 10900) "k" (Some "x"%string) [2 * time.Second] NewCache)).1
     = (None, false))
  ∧ (0 < 500 * time.Millisecond
     ∧ 0 ≤ 0 < 500 * time.Millisecond
     ∧ (Get None (time.Add (at_ms 10200) 0) "k"
          (Set_ (at_ms 10200) "k" (Some "x"%string) [500 * time.Millisecond] NewCache)).1
       = (None, false)).
Proof. vm_compute. repeat split; congruence. Qed.

(** ** The theorems at concrete inputs *)

Lemma Get_spec_witness :
  ((Get None (at_ms 13000) "a" scenario).1 = (None, false)
   ∧ items (Get None (at_ms 13000) "a" scenario).2 = delete "a"%string (items scenario)
   ∧ items (Get None (at_ms 13000) "a" scenario).2 !! "a"%string = None)
  ∧ (Get None (at_ms 11999) "a" scenario).1 = (Some "x"%string, true)
  ∧ (Get None (at_ms 13000) "c" scenario).1 = (None, false).
Proof.
  split; [|split].
  - apply (proj1 (Get_spec None (at_ms 13000) "a" scenario)
             {| Value := Some "x"%string; Expiration := 12 |}).
    + reflexivity.
    + reflexivity.
    + vm_compute. discriminate.
  - apply (proj1 (proj2 (Get_spec None (at_ms 11999) "a" scenario))
             {| Value := Some "x"%string; Expiration := 12 |}).
    + reflexivity.
    + right. split; reflexivity.
  - apply (proj2 (proj2 (Get_spec None (at_ms 13000) "c" scenario))).
    reflexivity.
Defined.

Lemma Get_unexpired_frame_witness :
  Get None (at_ms 11999) "a" scenario = ((Some "x"%string, true), scenario).
Proof.
  apply (Get_unexpired_frame None (at_ms 11999) "a" scenario
           {| Value := Some "x"%string; Expiration := 12 |}).
  - reflexivity.
  - right. split; reflexivity.
Defined.

Lemma Set_expiration_witness :
  (items (Set_ (at_ms 10900) "k" (Some "x"%string) [-5] NewCache) !! "k"%string
     = Some {| Value := Some "x"%string; Expiration := 0 |}
   ∧ ∀ t, isExpired t {| Value := Some "x"%string; Expiration := 0 |} = false)
  ∧ (items (Set_ (at_ms 10900) "k" (Some "x"%string) [2 * time.Second] NewCache) !! "k"%string
       = Some {| Value := Some "x"%string;
                 Expiration := time.Unix (time.Add (at_ms 10900) (2 * time.Second)) |}
     ∧ time.Unix (time.Add (at_ms 10900) (2 * time.Second)) * time.Second
         ≤ at_ms 10900 + 2 * time.Second
         < time.Unix (time.Add (at_ms 10900) (2 * time.Second)) * time.Second
           + time.Second
     ∧ ∀ n, 2 * time.Second = n * time.Second →
         time.Unix (time.Add (at_ms 10900) (2 * time.Second))
         = time.Unix (at_ms 10900) + n).
Proof.
  split.
  - apply (proj1 (Set_expiration (at_ms 10900) "k" (Some "x"%string) [-5] NewCache)).
    right. exists (-5), []. split; [reflexivity|lia].
  - apply (proj2 (Set_expiration (at_ms 10900) "k" (Some "x"%string)
                    [2 * time.Second] NewCache) (2 * time.Second) []).
    + reflexivity.
    + reflexivity.
Defined.

Lemma Set_overwrites_witness :
  (∃ e, items (Set_ (at_ms 11000) "a" (Some "z"%string) [4 * time.Second] scenario) !! "a"%string
          = Some {| Value := Some "z"%string; Expiration := e |}
        ∧ ([4 * time.Second] = [] → e = 0)
        ∧ (∀ d rest, [4 * time.Second] = d :: rest → d ≤ 0 → e = 0)
        ∧ (∀ d rest, [4 * time.Second] = d :: rest → 0 < d →
             e = time.Unix (time.Add (at_ms 11000) d)))
  ∧ Set_ (at_ms 11000) "a" (Some "z"%string) [4 * time.Second] scenario
    = Set_ (at_ms 11000) "a" (Some "z"%string) [4 * time.Second] (Delete "a" scenario)
  ∧ (∀ k, is_Some (items (Set_ (at_ms 11000) "a" (Some "z"%string)
                             [4 * time.Second] scenario) !! k)
          ↔ is_Some (items scenario !! k))
  ∧ ∀ k, k ≠ "a"%string →
      items (Set_ (at_ms 11000) "a" (Some "z"%string) [4 * time.Second] scenario) !! k
      = items scenario !! k.
Proof.
  apply (Set_overwrites (at_ms 11000) "a" (Some "z"%string) [4 * time.Second] scenario
           {| Value := Some "x"%string; Expiration := 12 |}).
  reflexivity.
Defined.

Lemma Set_then_Get_ttl_witness :
  ((Get None (time.Add (at_ms 10900) (1100 * time.Millisecond)) "k"
      (Set_ (at_ms 10900) "k" (Some "x"%string) [2 * time.Second] NewCache)).1
   = (Some "x"%string, true)
   ↔ time.Unix (time.Add (at_ms 10900) (1100 * time.Millisecond))
     < time.Unix (time.Add (at_ms 10900) (2 * time.Second)))
  ∧ ((Get None (time.Add (at_ms 10900) (1100 * time.Millisecond)) "k"
        (Set_ (at_ms 10900) "k" (Some "x"%string) [2 * time.Second] NewCache)).1
     = (None, false)
     ↔ time.Unix (time.Add (at_ms 10900) (2 * time.Second))
       ≤ time.Unix (time.Add (at_ms 10900) (1100 * time.Millisecond)))
  ∧ (2 * time.Second ≤ 1100 * time.Millisecond →
     (Get None (time.Add (at_ms 10900) (1100 * time.Millisecond)) "k"
        (Set_ (at_ms 10900) "k" (Some "x"%string) [2 * time.Second] NewCache)).1
     = (None, false))
  ∧ (1100 * time.Millisecond + time.Second ≤ 2 * time.Second →
     (Get None (time.Add (at_ms 10900) (1100 * time.Millisecond)) "k"
        (Set_ (at_ms 10900) "k" (Some "x"%string) [2 * time.Second] NewCache)).1
     = (Some "x"%string, true)).
Proof.
  apply (Set_then_Get_ttl None (at_ms 10900) (1100 * time.Millisecond)
           (2 * time.Second) "k" (Some "x"%string) NewCache).
  - reflexivity.
  - vm_compute. discriminate.
Defined.

Lemma deleteExpired_spec_witness :
  items (deleteExpired (at_ms 13000) scenario) !! "a"%string = None
  ∧ items (deleteExpired (at_ms 13000) scenario) !! "b"%string
    = Some {| Value := Some "y"%string; Expiration := 0 |}.
Proof.
  pose proof (deleteExpired_spec (at_ms 13000) scenario)
    as (Hcollect & _ & Hgone & _ & Hkept & _).
  split.
  - apply Hgone. apply Hcollect.
    exists {| Value := Some "x"%string; Expiration := 12 |}.
    split; [reflexivity|]. split; [reflexivity|]. vm_compute. discriminate.
  - apply Hkept; reflexivity.
Defined.



(** ** Further properties at concrete inputs *)

(** A run of the scenario's cache: a read of ["b"], a tick and the sweep it
    triggers, [Close], and the cleanup loop taking its stop case. *)
Definition demo : list (label (option string)) :=
  [LCall (CallSet (at_ms 10000) "a" (Some "x"%string) [2 * time.Second]);
   LCall (CallSet (at_ms 10000) "b" (Some "y"%string) []);
   LCall (CallGet (at_ms 11000) "b");
   LTick;
   LSelect CaseTick (at_ms 13000);
   LCall CallClose;
   LSelect CaseStop (at_ms 13000)].

Definition demo_end : World (option string) :=
  {| cache := {| items := items (deleteExpired (at_ms 13000) scenario);
                 stopCleanup := chan_closed |};
     tick := false;
     reaper := Returned |}.

Lemma demo_steps : steps None NewWorld demo demo_end.
Proof. apply run_steps. reflexivity. Defined.

Lemma Delete_absent_witness : Delete "c" scenario = scenario.
Proof. apply (Delete_absent "c" scenario). reflexivity. Defined.

Lemma Delete_spec_witness :
  (Get None (at_ms 13000) "b" (Delete "a" scenario)).1
  = (Get None (at_ms 13000) "b" scenario).1.
Proof.
  apply (proj1 (proj2 (proj2 (Delete_spec None "a" scenario))) (at_ms 13000) "b").
  discriminate.
Defined.

Lemma Clear_spec_witness : Clear scenario = NewCache.
Proof.
  apply (proj2 (proj2 (proj2 (proj2 (Clear_spec None scenario))))).
  reflexivity.
Defined.

Lemma Get_frame_witness :
  items (Get None (at_ms 13000) "a" scenario).2 !! "b"%string
  = items scenario !! "b"%string.
Proof.
  apply (proj2 (proj2 (Get_frame None (at_ms 13000) "a" scenario)) "b"%string).
  discriminate.
Defined.

Lemma Get_outcome_witness :
  (("a"%string ∉ Keys (Get None (at_ms 13000) "a" scenario).2)
   ∧ ∀ now', Get None now' "a" (Get None (at_ms 13000) "a" scenario).2
             = ((None, false), (Get None (at_ms 13000) "a" scenario).2))
  ∧ ((Get None (at_ms 11000) "a" scenario).2 = scenario
     ∧ "a"%string ∈ Keys scenario).
Proof.
  split.
  - apply (proj1 (Get_outcome None (at_ms 13000) "a" scenario)). reflexivity.
  - apply (proj2 (Get_outcome None (at_ms 11000) "a" scenario)). reflexivity.
Defined.

Lemma Get_not_found_later_witness :
  (Get None (at_ms 99000) "a" scenario).1 = (None, false).
Proof.
  apply (Get_not_found_later None (at_ms 12000) (at_ms 99000) "a" scenario).
  - reflexivity.
  - vm_compute. discriminate.
Defined.

Lemma Set_compose_witness :
  Set_ (at_ms 11000) "b" (Some "y"%string) [] (Set_ (at_ms 10000) "a" (Some "x"%string) [] NewCache)
  = Set_ (at_ms 10000) "a" (Some "x"%string) [] (Set_ (at_ms 11000) "b" (Some "y"%string) [] NewCache).
Proof.
  apply (proj1 (proj2 (Set_compose (at_ms 10000) (at_ms 11000) "a"
                         (Some "x"%string) (Some "y"%string) [] [] NewCache)) "b"%string).
  discriminate.
Defined.

Lemma deleteExpired_Get_witness :
  (Get None (at_ms 13000) "a" (deleteExpired (at_ms 12000) scenario)).1
  = (Get None (at_ms 13000) "a" scenario).1.
Proof.
  apply (proj2 (deleteExpired_Get None (at_ms 12000) (at_ms 13000) "a" scenario)).
  vm_compute. discriminate.
Defined.

Lemma Set_then_sweep_witness :
  ("k"%string ∈ Keys (deleteExpired (at_ms 12900)
                        (Set_ (at_ms 10900) "k" (Some "x"%string) [2 * time.Second] NewCache))
   ↔ time.Unix (at_ms 12900) < time.Unix (time.Add (at_ms 10900) (2 * time.Second)))
  ∧ (at_ms 10900 + 2 * time.Second ≤ at_ms 12900 →
     items (deleteExpired (at_ms 12900)
              (Set_ (at_ms 10900) "k" (Some "x"%string) [2 * time.Second] NewCache))
       !! "k"%string = None).
Proof.
  apply (Set_then_sweep (at_ms 10900) (at_ms 12900) (2 * time.Second)
           "k" (Some "x"%string) NewCache).
  - reflexivity.
  - vm_compute. discriminate.
Defined.

Lemma Set_frame_witness :
  (Get None (at_ms 11000) "b" (Set_ (at_ms 11000) "a" (Some "z"%string) [] scenario)).1
  = (Get None (at_ms 11000) "b" scenario).1.
Proof.
  apply (proj2 (proj2 (Set_frame None (at_ms 11000) "a" (Some "z"%string) [] scenario))
           (at_ms 11000) "b"%string).
  discriminate.
Defined.

Lemma Set_short_ttl_witness :
  (Get None (at_ms 10200) "k"
     (Set_ (at_ms 10200) "k" (Some "x"%string) [500 * time.Millisecond] NewCache)).1
  = (None, false).
Proof.
  apply (Set_short_ttl None (at_ms 10200) (at_ms 10200) (500 * time.Millisecond)
           "k" (Some "x"%string) NewCache).
  - reflexivity.
  - vm_compute. discriminate.
  - reflexivity.
  - vm_compute. discriminate.
Defined.

Lemma Set_ttl_before_epoch_witness :
  Get None (at_ms 99000) "k"
    (Set_ (at_ms 0) "k" (Some "x"%string) [500 * time.Millisecond] NewCache)
  = ((Some "x"%string, true),
     Set_ (at_ms 0) "k" (Some "x"%string) [500 * time.Millisecond] NewCache).
Proof.
  apply (Set_ttl_before_epoch None (at_ms 0) (at_ms 99000) (500 * time.Millisecond)
           "k" (Some "x"%string) NewCache).
  - reflexivity.
  - reflexivity.
Defined.

Lemma Get_returns_last_write_witness :
  ∃ item, lastWrite "b" (items (cache (@NewWorld (option string))) !! "b"%string) demo
          = Some item
          ∧ Value item = Some "y"%string
          ∧ isExpired (time.Unix (at_ms 99000)) item = false.
Proof.
  apply (Get_returns_last_write None NewWorld demo demo_end (at_ms 99000) "b"
           (Some "y"%string)).
  - exact demo_steps.
  - reflexivity.
Defined.




Lemma new_cache_holds_what_was_set_witness :
  ∃ now value ttl,
    LCall (CallSet now "b" value ttl) ∈ demo
    ∧ items (cache demo_end) !! "b"%string = Some (stored now value ttl).
Proof.
  apply (new_cache_holds_what_was_set None demo demo_end "b").
  - exact demo_steps.
  - apply elem_of_Keys. exists {| Value := Some "y"%string; Expiration := 0 |}.
    reflexivity.
Defined.
